(** * TextEditor.py: spelling correction, adjective paraphrasing and the
      paraphrase action of the text editor

    A shallow embedding of [src/Text-Editor/TextEditor.py].

    - Text is a list of characters ([str]).  The model is exact on 7-bit
      ASCII text; a character code of 128 or more stands for a symbol that
      belongs to none of the classes the program tests for (not whitespace,
      not a word character, not one of the punctuation marks, caseless).
    - The spell-checking engine, the tokenizer, the part-of-speech tagger
      and the lexical database are external libraries: they are parameters
      of the functions that call them.  [spell.correction] returns the most
      likely word, or [None] when it has no candidate, so its result is an
      [option str].
    - Exceptions are results in a sum type; the widgets and the state of the
      [random] module are fields of an explicit application state. *)

From Stdlib Require Import Ascii String List Arith Lia.
From stdpp Require Import base list strings gmap sets.

Set Default Proof Using "Type".

(** ** Strings *)

Definition str := list ascii.
Definition str_of (s : string) : str := list_ascii_of_string s.
Coercion str_of : string >-> str.

Open Scope string_scope.
Open Scope list_scope.
Open Scope nat_scope.

Definition code (c : ascii) : nat := nat_of_ascii c.

Definition in_range (lo hi : nat) (c : ascii) : bool :=
  (lo <=? code c) && (code c <=? hi).

(** [str.isspace] on one character: tab, newline, vertical tab, form feed,
    carriage return, the separators 0x1c-0x1f and the space. *)
Definition isspace (c : ascii) : bool :=
  in_range 9 13 c || in_range 28 31 c || (code c =? 32).

Definition is_upper_letter (c : ascii) : bool := in_range 65 90 c.
Definition is_lower_letter (c : ascii) : bool := in_range 97 122 c.
Definition is_digit (c : ascii) : bool := in_range 48 57 c.

(** The class [\w] of the [re] module: letters, digits and the underscore. *)
Definition is_word (c : ascii) : bool :=
  is_upper_letter c || is_lower_letter c || is_digit c || (code c =? 95).

(** The class [[!.,;?]] of the pattern in [correct_spelling]. *)
Definition is_punct (c : ascii) : bool :=
  (code c =? 33) || (code c =? 46) || (code c =? 44) || (code c =? 59)
  || (code c =? 63).

(** The class of the pattern in [paraphrase_sentence]: the marks above, the
    colon and the double quote. *)
Definition is_close_punct (c : ascii) : bool :=
  is_punct c || (code c =? 58) || (code c =? 34).

(** [str.isupper] on one character. *)
Definition isupper (c : ascii) : bool := is_upper_letter c.

Definition upper (c : ascii) : ascii :=
  if is_lower_letter c then ascii_of_nat (code c - 32) else c.

Definition lower (c : ascii) : ascii :=
  if is_upper_letter c then ascii_of_nat (code c + 32) else c.

(** [str.capitalize]: the first character in upper case, the others in
    lower case. *)
Definition capitalize (s : str) : str :=
  match s with
  | [] => []
  | c :: rest => upper c :: map lower rest
  end.

(** [sep.join(l)]. *)
Fixpoint join (sep : str) (l : list str) : str :=
  match l with
  | [] => []
  | [x] => x
  | x :: rest => x ++ sep ++ join sep rest
  end.

(** [str.split()] without argument: the maximal runs of characters that are
    not whitespace.  [word] is the run being read. *)
Fixpoint split_from (word : str) (s : str) : list str :=
  match s with
  | [] => match word with [] => [] | _ => [word] end
  | c :: rest =>
      if isspace c
      then match word with
           | [] => split_from [] rest
           | _ => word :: split_from [] rest
           end
      else split_from (word ++ [c]) rest
  end.

Definition split (s : str) : list str := split_from [] s.

(** [str.strip()]. *)
Fixpoint lstrip (s : str) : str :=
  match s with
  | c :: rest => if isspace c then lstrip rest else s
  | [] => []
  end.

Definition strip (s : str) : str := rev (lstrip (rev (lstrip s))).

(** The longest prefix of [s] in the class [p], and the rest: what a greedy
    starred character class consumes. *)
Fixpoint span (p : ascii -> bool) (s : str) : str * str :=
  match s with
  | c :: rest =>
      if p c then let '(run, tl) := span p rest in (c :: run, tl)
      else ([], s)
  | [] => ([], [])
  end.

(** One attempt of the pattern of [correct_spelling] at the start of [s]: a
    greedy run of punctuation marks, one word character or more, a greedy
    run of punctuation marks.  The result is the three groups and what
    follows the match.  The classes are
    disjoint, so giving back punctuation never helps [\w+] to match. *)
Definition match_here (s : str) : option ((str * str * str) * str) :=
  let '(pre_punct, s1) := span is_punct s in
  let '(word, s2) := span is_word s1 in
  match word with
  | [] => None
  | _ => let '(post_punct, s3) := span is_punct s2 in
         Some ((pre_punct, word, post_punct), s3)
  end.

(** [re.findall]: scan from the left; after a match go on behind it, after
    a failure go on one character further.  Every attempt moves on by at
    least one character, so [length s] attempts are enough. *)
Fixpoint findall_from (attempts : nat) (s : str) : list (str * str * str) :=
  match attempts with
  | O => []
  | S n =>
      match s with
      | [] => []
      | _ :: rest =>
          match match_here s with
          | Some (groups, s') => groups :: findall_from n s'
          | None => findall_from n rest
          end
      end
  end.

Definition findall (s : str) : list (str * str * str) :=
  findall_from (length s) s.

(** The [re.sub] of [paraphrase_sentence]: a whitespace character is
    removed when a closing punctuation mark follows it and that mark is
    followed by whitespace or ends the string.  The whitespace after the
    mark is part of the match, so the scan goes on behind it. *)
Fixpoint sub_space_before_punct (s : str) : str :=
  match s with
  | [] => []
  | c :: rest =>
      match rest with
      | p :: rest' =>
          if isspace c && is_close_punct p then
            match rest' with
            | [] => [p]
            | d :: rest'' =>
                if isspace d then p :: d :: sub_space_before_punct rest''
                else c :: sub_space_before_punct rest
            end
          else c :: sub_space_before_punct rest
      | [] => [c]
      end
  end.

(** ** Exceptions *)

Inductive exn := AttributeError | IndexError | TclError.

Definition result (A : Type) : Type := exn + A.

Definition ret {A} (a : A) : result A := inr a.
Definition raise {A} (e : exn) : result A := inl e.

Definition bind {A B} (m : result A) (k : A -> result B) : result B :=
  match m with
  | inl e => inl e
  | inr a => k a
  end.

Notation "'try' x <- m 'in' k" := (bind m (fun x => k))
  (at level 10, x name, m at level 100, k at level 200).

(** A [for] loop whose body may raise. *)
Fixpoint for_each {A S} (body : S -> A -> result S) (l : list A) (s : S)
  : result S :=
  match l with
  | [] => ret s
  | a :: rest => try s' <- body s a in for_each body rest s'
  end.

(** ** Spelling correction *)

(** [word[0]]. *)
Definition first_char (word : str) : result ascii :=
  match word with
  | [] => raise IndexError
  | c :: _ => ret c
  end.

(** [corrected_word.capitalize()] where [corrected_word] may be [None]. *)
Definition capitalize_value (v : option str) : result (option str) :=
  match v with
  | None => raise AttributeError
  | Some s => ret (Some (capitalize s))
  end.

(** [f'{v}']. *)
Definition format_value (v : option str) : str :=
  match v with
  | None => str_of "None"
  | Some s => s
  end.

Section Speller.

(** [spell.correction]. *)
Variable spell_correction : str -> option str.

(** The value of [corrected_word] when it is formatted. *)
Definition corrected_word_of (word : str) : result (option str) :=
  let corrected_word := spell_correction word in
  try c0 <- first_char word in
  if isupper c0 then capitalize_value corrected_word
  else ret corrected_word.

(** The body of the inner loop. *)
Definition correct_match (corrected_text : list str) (m : str * str * str)
  : result (list str) :=
  let '(pre_punct, word, post_punct) := m in
  try corrected_word <- corrected_word_of word in
  ret (corrected_text
         ++ [pre_punct ++ format_value corrected_word ++ post_punct]).

(** The body of the outer loop. *)
Definition correct_segment (corrected_text : list str) (segment : str)
  : result (list str) :=
  for_each correct_match (findall segment) corrected_text.

(** The list [corrected_text] when the loops are done. *)
Definition corrected_pieces (text : str) : result (list str) :=
  for_each correct_segment (split text) [].

Definition correct_spelling (text : str) : result str :=
  try corrected_text <- corrected_pieces text in
  ret (join " " corrected_text).

End Speller.

(** ** Paraphrasing *)

(** The part of the lexical database the program reads: a sense entry
    ([Synset]) has lemmas, a lemma has a name. *)
Record wn_lemma := { lemma_name : str }.
Record synset := { lemmas : list wn_lemma }.

(** The state of the [random] module: the draws still to come. *)
Definition rng := nat -> nat.

(** [random._randbelow(n)]: uses up one draw. *)
Definition randbelow (g : rng) (n : nat) : nat * rng :=
  (g 0 mod n, fun k => g (S k)).

(** [random.choice(seq)]. *)
Definition choice {A} (g : rng) (seq : list A) : result (A * rng) :=
  match seq with
  | [] => raise IndexError
  | _ =>
      let '(i, g') := randbelow g (length seq) in
      match seq !! i with
      | Some x => ret (x, g')
      | None => raise IndexError
      end
  end.

Section Paraphraser.

(** [nltk.word_tokenize], [nltk.pos_tag] and
    [wordnet.synsets(word, pos='a')]. *)
Variable word_tokenize : str -> list str.
Variable pos_tag : list str -> list (str * str).
Variable wordnet_synsets_a : str -> list synset.

(** The set [synonyms] after the two loops over the sense entries of
    [word] and their lemmas. *)
Definition adjective_synonyms (word : str) : gset str :=
  foldl (fun synonyms syn =>
           foldl (fun synonyms lemma => synonyms ∪ {[ lemma_name lemma ]})
                 synonyms (lemmas syn))
        ∅ (wordnet_synsets_a word).

(** The body of the loop over [pos_tags]; the loop state is the list
    [paraphrased_words] and the state of [random]. *)
Definition paraphrase_token (st : list str * rng) (tagged : str * str)
  : result (list str * rng) :=
  let '(paraphrased_words, g) := st in
  let '(word, pos) := tagged in
  if decide (pos = str_of "JJ") then
    let synonyms := adjective_synonyms word in
    if decide (1 < size synonyms) then
      try picked <- choice g (elements (synonyms ∖ {[ word ]})) in
      ret (paraphrased_words ++ [picked.1], picked.2)
    else ret (paraphrased_words ++ [word], g)
  else ret (paraphrased_words ++ [word], g).

(** The list [paraphrased_words] when the loop is done. *)
Definition paraphrased_words_of (sentence : str) (g : rng)
  : result (list str * rng) :=
  let words := word_tokenize sentence in
  let pos_tags := pos_tag words in
  for_each paraphrase_token pos_tags ([], g).

Definition paraphrase_sentence (sentence : str) (g : rng)
  : result (str * rng) :=
  try done <- paraphrased_words_of sentence g in
  let paraphrased_sentence := join " " done.1 in
  ret (sub_space_before_punct paraphrased_sentence, done.2).

End Paraphraser.

(** ** The text widgets *)

(** A [tk.Text] holds characters, each with the tags put on it, and always
    ends with a newline of its own, which [chars] leaves out.  An index is
    the offset of a character from index 1.0.  The selection is the range
    of the tag [sel]: [sel.first] and [sel.last] when there is one. *)
Record text_widget := {
  chars : list (ascii * list str);
  selection : option (nat * nat);
  tag_options : list (str * list (str * str))
}.

Definition newline : ascii := ascii_of_nat 10.

Definition contents (w : text_widget) : str := map fst (chars w).

(** The index [tk.END]: behind the final newline. *)
Definition tk_END (w : text_widget) : nat := S (length (chars w)).

(** [w.get(lo, hi)]. *)
Definition tk_get (w : text_widget) (lo hi : nat) : str :=
  take (hi - lo) (drop lo (contents w ++ [newline])).

(** [w.index(tk.SEL_FIRST)], [w.index(tk.SEL_LAST)]: a [TclError] when
    nothing is selected. *)
Definition tk_index_sel_first (w : text_widget) : result nat :=
  match selection w with
  | None => raise TclError
  | Some (lo, _) => ret lo
  end.

Definition tk_index_sel_last (w : text_widget) : result nat :=
  match selection w with
  | None => raise TclError
  | Some (_, hi) => ret hi
  end.

(** [w.get(tk.SEL_FIRST, tk.SEL_LAST)]. *)
Definition tk_get_selection (w : text_widget) : result str :=
  try lo <- tk_index_sel_first w in
  try hi <- tk_index_sel_last w in
  ret (tk_get w lo hi).

(** [w.delete('1.0', tk.END)]: every character but the final newline goes,
    and the tag ranges on them with it. *)
Definition tk_delete_all (w : text_widget) : text_widget :=
  {| chars := []; selection := None; tag_options := tag_options w |}.

(** [w.insert(tk.END, s, *tags)]: in front of the final newline. *)
Definition tk_insert_end (w : text_widget) (s : str) (tags : list str)
  : text_widget :=
  {| chars := chars w ++ map (fun c => (c, tags)) s;
     selection := selection w;
     tag_options := tag_options w |}.

(** [w.tag_configure(tag, **options)]. *)
Definition tk_tag_configure (w : text_widget) (tag : str)
    (options : list (str * str)) : text_widget :=
  {| chars := chars w;
     selection := selection w;
     tag_options := (tag, options) :: tag_options w |}.

(** [w.tag_add(tag, '1.0', tk.END)]. *)
Definition tk_tag_add_all (w : text_widget) (tag : str) : text_widget :=
  {| chars := map (fun ct => (ct.1, tag :: ct.2)) (chars w);
     selection := selection w;
     tag_options := tag_options w |}.

(** ** The application *)

(** The module-level widgets and the state of [random]. *)
Record app := {
  original_text_widget : text_widget;
  corrected_text_widget : text_widget;
  paraphrase_text_widget : text_widget;
  synonym_listbox : list str;
  spelling_listbox : list str;
  random_state : rng
}.

Definition with_corrected (w : text_widget) (st : app) : app :=
  {| original_text_widget := original_text_widget st;
     corrected_text_widget := w;
     paraphrase_text_widget := paraphrase_text_widget st;
     synonym_listbox := synonym_listbox st;
     spelling_listbox := spelling_listbox st;
     random_state := random_state st |}.

Definition with_paraphrase (w : text_widget) (st : app) : app :=
  {| original_text_widget := original_text_widget st;
     corrected_text_widget := corrected_text_widget st;
     paraphrase_text_widget := w;
     synonym_listbox := synonym_listbox st;
     spelling_listbox := spelling_listbox st;
     random_state := random_state st |}.

Definition with_random (g : rng) (st : app) : app :=
  {| original_text_widget := original_text_widget st;
     corrected_text_widget := corrected_text_widget st;
     paraphrase_text_widget := paraphrase_text_widget st;
     synonym_listbox := synonym_listbox st;
     spelling_listbox := spelling_listbox st;
     random_state := g |}.

(** [zip(a, b, c)]: stops with the shortest. *)
Fixpoint zip3 {A B C} (a : list A) (b : list B) (c : list C)
  : list (A * B * C) :=
  match a, b, c with
  | x :: a', y :: b', z :: c' => (x, y, z) :: zip3 a' b' c'
  | _, _, _ => []
  end.

(** The options of the tag [changed]. *)
Definition changed_options : list (str * str) :=
  [(str_of "font", str_of "TkDefaultFont 10 italic");
   (str_of "background", str_of "yellow")].

(** A callback leaves the state it reached and, when it raised, the
    exception that reaches the event loop. *)
Definition outcome : Type := app * option exn.

Section Callbacks.

Variable spell_correction : str -> option str.
Variable word_tokenize : str -> list str.
Variable pos_tag : list str -> list (str * str).
Variable wordnet_synsets_a : str -> list synset.

Definition update_output (st : app) : outcome :=
  let w := original_text_widget st in
  let original_text := tk_get w 0 (tk_END w - 1) in
  match correct_spelling spell_correction original_text with
  | inl e => (st, Some e)
  | inr corrected_text =>
      let c := tk_delete_all (corrected_text_widget st) in
      (with_corrected (tk_insert_end c corrected_text []) st, None)
  end.

(** The body of the loop over the zipped word streams. *)
Definition insert_word (p : text_widget) (w : str * str * str)
  : text_widget :=
  let '(orig, para, corr) := w in
  if decide (para <> corr)
  then tk_insert_end p (para ++ str_of " ") [str_of "changed"]
  else tk_insert_end p (para ++ str_of " ") [].

Definition update_paraphrase (st : app) : outcome :=
  let w := corrected_text_widget st in
  let original_text := strip (tk_get w 0 (tk_END w)) in
  match tk_get_selection w with
  | inl TclError => (st, None)
  | inl e => (st, Some e)
  | inr selected_text =>
  match (try lo <- tk_index_sel_first w in
         try hi <- tk_index_sel_last w in ret (lo, hi)) with
  | inl e => (st, Some e)
  | inr (start_idx, end_idx) =>
  let before_selected := tk_get w 0 start_idx in
  let after_selected := tk_get w end_idx (tk_END w) in
  match paraphrase_sentence word_tokenize pos_tag wordnet_synsets_a
          selected_text (random_state st) with
  | inl e => (st, Some e)
  | inr (paraphrased, g) =>
  let st := with_random g st in
  let reconstructed_text := before_selected ++ after_selected in
  let p := tk_delete_all (paraphrase_text_widget st) in
  let p := tk_insert_end p before_selected [] in
  let st := with_paraphrase p st in
  let words_original := split selected_text in
  let words_paraphrased := split paraphrased in
  match correct_spelling spell_correction selected_text with
  | inl e => (st, Some e)
  | inr corrected =>
  let words_corrected := split corrected in
  let p := foldl insert_word p
             (zip3 words_original words_paraphrased words_corrected) in
  let p := tk_insert_end p after_selected [] in
  let p := tk_tag_configure p (str_of "changed") changed_options in
  let p := tk_tag_add_all p (str_of "selectable") in
  (with_paraphrase p st, None)
  end end end end.

End Callbacks.

(** ** The other callbacks *)

Definition with_original (w : text_widget) (st : app) : app :=
  {| original_text_widget := w;
     corrected_text_widget := corrected_text_widget st;
     paraphrase_text_widget := paraphrase_text_widget st;
     synonym_listbox := synonym_listbox st;
     spelling_listbox := spelling_listbox st;
     random_state := random_state st |}.

Definition with_synonym_listbox (l : list str) (st : app) : app :=
  {| original_text_widget := original_text_widget st;
     corrected_text_widget := corrected_text_widget st;
     paraphrase_text_widget := paraphrase_text_widget st;
     synonym_listbox := l;
     spelling_listbox := spelling_listbox st;
     random_state := random_state st |}.

Definition with_spelling_listbox (l : list str) (st : app) : app :=
  {| original_text_widget := original_text_widget st;
     corrected_text_widget := corrected_text_widget st;
     paraphrase_text_widget := paraphrase_text_widget st;
     synonym_listbox := synonym_listbox st;
     spelling_listbox := l;
     random_state := random_state st |}.

(** A [tk.Listbox] is the list of its entries: [delete(0, tk.END)] empties
    it and [insert(tk.END, x)] appends [x]. *)
Definition clear_all (st : app) : app :=
  let st := with_original (tk_delete_all (original_text_widget st)) st in
  let st := with_corrected (tk_delete_all (corrected_text_widget st)) st in
  let st := with_paraphrase (tk_delete_all (paraphrase_text_widget st)) st in
  let st := with_synonym_listbox [] st in
  with_spelling_listbox [] st.


Section Lookup.

(** [wordnet.synsets(word)] and [spell.candidates(word)], which returns a
    set of words or [None]; the index arithmetic of Tk for the modifiers
    [wordstart] and [wordend]. *)
Variable wordnet_synsets : str -> list synset.
Variable spell_candidates : str -> option (gset str).
Variable tk_wordstart : text_widget -> nat -> nat.
Variable tk_wordend : text_widget -> nat -> nat.



End Lookup.

(** ** Engines, taggers and states to run the program on *)

(** An engine that answers every word with the word itself, one that never
    has an answer, and one that knows a contraction. *)
Definition echo : str -> option str := fun w => Some w.
Definition silent : str -> option str := fun _ => None.
Definition contraction : str -> option str :=
  fun w => if decide (w = str_of "dont") then Some (str_of "don't") else Some w.

(** A tokenizer that splits at whitespace, a tagger that knows two
    adjectives, and a database with one sense entry for each. *)
Definition toy_tokenize : str -> list str := split.

Definition toy_tag (words : list str) : list (str * str) :=
  map (fun w =>
         if decide (w = str_of "good" \/ w = str_of "big")
         then (w, str_of "JJ") else (w, str_of "NN"))
      words.

Definition toy_synsets (word : str) : list synset :=
  if decide (word = str_of "good") then
    [ {| lemmas := [ {| lemma_name := str_of "good" |};
                     {| lemma_name := str_of "well" |} ] |} ]
  else if decide (word = str_of "big") then
    [ {| lemmas := [ {| lemma_name := str_of "large" |} ] |} ]
  else [].

Definition zeros : rng := fun _ => 0.

Definition plain_text (s : str) (sel : option (nat * nat)) : text_widget :=
  {| chars := map (fun c => (c, [])) s; selection := sel; tag_options := [] |}.

Definition toy_app (original corrected : str) (sel : option (nat * nat))
  : app :=
  {| original_text_widget := plain_text original None;
     corrected_text_widget := plain_text corrected sel;
     paraphrase_text_widget := plain_text (str_of "old") None;
     synonym_listbox := [];
     spelling_listbox := [];
     random_state := zeros |}.

(** ** Vocabulary of the properties *)

Definition all (p : ascii -> bool) (s : str) : Prop :=
  Forall (fun c => p c = true) s.

(** What comes after a greedy run does not start in the class. *)
Definition stops (p : ascii -> bool) (s : str) : Prop :=
  match s with
  | [] => True
  | c :: _ => p c = false
  end.

(** A token as the pattern captures it. *)
Definition well_formed (m : str * str * str) : Prop :=
  let '(pre_punct, word, post_punct) := m in
  all is_punct pre_punct /\ word <> [] /\ all is_word word
  /\ all is_punct post_punct.

Definition solid (s : str) : Prop := Forall (fun c => isspace c = false) s.

(** [map] with a function that may raise. *)
Fixpoint map_result {A B} (f : A -> result B) (l : list A) : result (list B) :=
  match l with
  | [] => ret []
  | a :: rest =>
      try b <- f a in
      try bs <- map_result f rest in
      ret (b :: bs)
  end.

(** The tokens of a text: the matches of the pattern in its segments. *)
Definition tokens (text : str) : list (str * str * str) :=
  flat_map findall (split text).

(** What the inner loop appends for one token. *)
Definition piece_of (spell_correction : str -> option str)
    (m : str * str * str) : result str :=
  let '(pre_punct, word, post_punct) := m in
  try corrected_word <- corrected_word_of spell_correction word in
  ret (pre_punct ++ format_value corrected_word ++ post_punct).

Definition starts_upper (word : str) : bool :=
  match word with
  | c :: _ => isupper c
  | [] => false
  end.

(** The answer of the engine to the word of a token, when there is one, is
    a word. *)
Definition answered_by_a_word (engine : str -> option str)
    (m : str * str * str) : Prop :=
  forall c, engine m.1.2 = Some c -> c <> [] /\ all is_word c.

(** A piece of the output: not empty, made of word characters and
    punctuation marks. *)
Definition clean_char (c : ascii) : Prop :=
  is_word c = true \/ is_punct c = true.

Definition clean_piece (piece : str) : Prop :=
  piece <> [] /\ Forall clean_char piece.

Definition has_word_char (segment : str) : bool := existsb is_word segment.




(** What the loop of [paraphrase_sentence] may append for a tagged word:
    the word itself, or else, for a word tagged JJ, one of its adjective
    synonyms other than the word. *)
Definition appended (wordnet_synsets_a : str -> list synset)
    (tagged : str * str) (out : str) : Prop :=
  (tagged.2 <> str_of "JJ" -> out = tagged.1)
  /\ (out <> tagged.1 ->
      tagged.2 = str_of "JJ"
      /\ out ∈ adjective_synonyms wordnet_synsets_a tagged.1 ∖ {[ tagged.1 ]}).

(** A token for which [correct_spelling] raises: no answer from the engine
    for a word that starts with an uppercase letter. *)
Definition unanswered_upper (engine : str -> option str)
    (m : str * str * str) : Prop :=
  engine m.1.2 = None /\ starts_upper m.1.2 = true.

(** A segment that is one punctuated word which the engine answers with
    the word itself and which [capitalize] leaves alone. *)
Definition settled (engine : str -> option str) (segment : str) : Prop :=
  exists pre word post,
    segment = pre ++ word ++ post
    /\ well_formed (pre, word, post)
    /\ engine word = Some word
    /\ (starts_upper word = true -> capitalize word = word).

Definition not_space (c : ascii) : bool := negb (isspace c).

(** A tagged word for which [paraphrase_sentence] draws a synonym. *)
Definition substituted (wordnet_synsets_a : str -> list synset)
    (tagged : str * str) : bool :=
  bool_decide (tagged.2 = str_of "JJ"
               /\ 1 < size (adjective_synonyms wordnet_synsets_a tagged.1)).





(** * Properties *)

(** ** Character classes *)

Ltac by_cases_on_char c :=
  destruct c as [[] [] [] [] [] [] [] []]; vm_compute;
  try reflexivity; try discriminate; intuition congruence.

Lemma punct_not_word c : is_punct c = true -> is_word c = false.
Proof. by_cases_on_char c. Qed.

Lemma word_not_punct c : is_word c = true -> is_punct c = false.
Proof. by_cases_on_char c. Qed.

Lemma word_not_space c : is_word c = true -> isspace c = false.
Proof. by_cases_on_char c. Qed.

Lemma punct_not_space c : is_punct c = true -> isspace c = false.
Proof. by_cases_on_char c. Qed.

Lemma is_word_upper c : is_word (upper c) = is_word c.
Proof. by_cases_on_char c. Qed.

Lemma is_word_lower c : is_word (lower c) = is_word c.
Proof. by_cases_on_char c. Qed.

Lemma upper_of_letter c :
  is_upper_letter c || is_lower_letter c = true -> isupper (upper c) = true.
Proof. by_cases_on_char c. Qed.

Lemma lower_fixes c : is_upper_letter c = false -> lower c = c.
Proof. unfold lower. now intros ->. Qed.

Lemma upper_fixes c : is_lower_letter c = false -> upper c = c.
Proof. unfold upper. now intros ->. Qed.

Lemma lower_changes c : is_upper_letter c = true -> lower c <> c.
Proof. by_cases_on_char c. Qed.

(** ** Greedy runs and the pattern *)

Lemma span_spec p s run tl :
  span p s = (run, tl) -> s = run ++ tl /\ all p run /\ stops p tl.
Proof.
  revert run tl. induction s as [|c s IH]; intros run tl; simpl.
  - intros [= <- <-]. repeat split. constructor.
  - destruct (p c) eqn:Hc.
    + destruct (span p s) as [r t] eqn:Hs. intros [= <- <-].
      destruct (IH r t eq_refl) as (-> & Hr & Ht).
      repeat split; [by constructor | exact Ht].
    + intros [= <- <-]. repeat split; [constructor | exact Hc].
Qed.

Lemma span_run p run tl :
  all p run -> stops p tl -> span p (run ++ tl) = (run, tl).
Proof.
  intros Hrun Htl. induction Hrun as [|c run Hc _ IH]; simpl.
  - destruct tl as [|c tl]; [reflexivity|]. simpl in *. now rewrite Htl.
  - now rewrite Hc, IH.
Qed.

Lemma match_here_spec s m s' :
  match_here s = Some (m, s') ->
  well_formed m /\
  s = m.1.1 ++ m.1.2 ++ m.2 ++ s' /\ length s' < length s.
Proof.
  unfold match_here.
  destruct (span is_punct s) as [pre s1] eqn:H1.
  destruct (span is_word s1) as [word s2] eqn:H2.
  destruct word as [|c word]; [discriminate|].
  destruct (span is_punct s2) as [post s3] eqn:H3.
  intros [= <- <-]. simpl.
  apply span_spec in H1 as (-> & Hpre & _).
  apply span_spec in H2 as (-> & Hword & _).
  apply span_spec in H3 as (-> & Hpost & _).
  repeat split; try done.
  rewrite !length_app. simpl. lia.
Qed.

Lemma findall_from_well_formed n s : Forall well_formed (findall_from n s).
Proof.
  revert s. induction n as [|n IH]; intros s; simpl; [constructor|].
  destruct s as [|c s]; [constructor|].
  destruct (match_here (c :: s)) as [[m s']|] eqn:Hm; [|apply IH].
  constructor; [|apply IH]. now apply match_here_spec in Hm.
Qed.

Lemma findall_well_formed s : Forall well_formed (findall s).
Proof. apply findall_from_well_formed. Qed.

(** More attempts than characters change nothing. *)
Lemma findall_from_enough n s :
  length s <= n -> findall_from n s = findall s.
Proof.
  unfold findall. remember (length s) as k eqn:Hk.
  revert n s Hk. induction k as [k IH] using lt_wf_ind. intros n s Hk Hle.
  destruct s as [|c s]; simpl in Hk; subst k.
  - now destruct n.
  - destruct n as [|n]; [lia|]. simpl.
    destruct (match_here (c :: s)) as [[m s']|] eqn:Hm.
    + apply match_here_spec in Hm as (_ & _ & Hlt). simpl in Hlt.
      f_equal.
      rewrite (IH (length s') ltac:(simpl; lia) n s' eq_refl ltac:(lia)).
      symmetry.
      apply (IH (length s') ltac:(simpl; lia) (length s) s' eq_refl ltac:(lia)).
    + apply (IH (length s) ltac:(simpl; lia) n s eq_refl ltac:(lia)).
Qed.

(** A punctuated word is one token: the pattern gives back its parts. *)
Lemma findall_token pre word post :
  well_formed (pre, word, post) ->
  findall (pre ++ word ++ post) = [(pre, word, post)].
Proof.
  intros (Hpre & Hne & Hword & Hpost).
  assert (Hm : match_here (pre ++ word ++ post) = Some ((pre, word, post), [])).
  { unfold match_here. rewrite (span_run is_punct pre (word ++ post) Hpre).
    - rewrite (span_run is_word word post Hword).
      + destruct word; [done|].
        rewrite <- (app_nil_r post) at 1.
        now rewrite (span_run is_punct post [] Hpost).
      + destruct Hpost as [|c post Hc _]; simpl; [done|].
        now apply punct_not_word.
    - destruct Hword as [|c word Hc _]; [done|]. simpl.
      now apply word_not_punct. }
  unfold findall.
  destruct (pre ++ word ++ post) as [|c s] eqn:Hs.
  - destruct pre; [|discriminate]. now destruct word.
  - cbn [length findall_from]. rewrite Hm. f_equal.
    now destruct (length s).
Qed.

(** ** Splitting at whitespace *)

Lemma split_from_solid word s :
  solid s -> word ++ s <> [] -> split_from word s = [word ++ s].
Proof.
  intros Hs. revert word. induction Hs as [|c s Hc _ IH]; intros word Hne; simpl.
  - rewrite app_nil_r in *. now destruct word.
  - rewrite Hc, IH; rewrite <- app_assoc; [done|exact Hne].
Qed.

Lemma token_solid pre word post :
  well_formed (pre, word, post) -> solid (pre ++ word ++ post).
Proof.
  intros (Hpre & _ & Hword & Hpost). unfold solid, all in *.
  rewrite !Forall_app. repeat split;
    (eapply Forall_impl; [eassumption|]); simpl; intros c Hc;
    auto using punct_not_space, word_not_space.
Qed.

Lemma split_token pre word post :
  well_formed (pre, word, post) ->
  split (pre ++ word ++ post) = [pre ++ word ++ post].
Proof.
  intros Hwf. unfold split.
  rewrite split_from_solid; [done|now apply token_solid|].
  destruct Hwf as (_ & Hne & _). simpl.
  destruct pre; [|done]. now destruct word.
Qed.

(** ** The loops of [correct_spelling] as a map over the tokens *)

Lemma map_result_app {A B} (f : A -> result B) l1 l2 :
  map_result f (l1 ++ l2) =
  try x <- map_result f l1 in try y <- map_result f l2 in ret (x ++ y).
Proof.
  induction l1 as [|a l1 IH]; simpl.
  - now destruct (map_result f l2).
  - destruct (f a) as [e|b]; simpl; [done|]. rewrite IH.
    destruct (map_result f l1); simpl; [done|].
    now destruct (map_result f l2).
Qed.

Lemma map_result_inr {A B} (f : A -> result B) l out :
  map_result f l = inr out -> Forall2 (fun a b => f a = inr b) l out.
Proof.
  revert out. induction l as [|a l IH]; simpl; intros out.
  - intros [= <-]. constructor.
  - destruct (f a) as [e|b] eqn:Hb; simpl; [done|].
    destruct (map_result f l) as [e|bs]; simpl; [done|].
    intros [= <-]. constructor; [exact Hb|now apply IH].
Qed.

Lemma map_result_total {A B} (f : A -> result B) l :
  Forall (fun a => exists b, f a = inr b) l -> exists out, map_result f l = inr out.
Proof.
  induction 1 as [|a l [b Hb] _ [bs IH]]; simpl; [by eexists|].
  rewrite Hb, IH. simpl. by eexists.
Qed.

Section SpellerLoops.

Variable spell_correction : str -> option str.

Lemma for_each_correct_match ms acc :
  for_each (correct_match spell_correction) ms acc =
  try ps <- map_result (piece_of spell_correction) ms in ret (acc ++ ps).
Proof.
  revert acc. induction ms as [|[[pre word] post] ms IH]; intros acc; simpl.
  - now rewrite app_nil_r.
  - destruct (corrected_word_of spell_correction word) as [e|v]; simpl; [done|].
    rewrite IH.
    destruct (map_result (piece_of spell_correction) ms); simpl; [done|].
    now rewrite <- app_assoc.
Qed.

Lemma for_each_correct_segment segs acc :
  for_each (correct_segment spell_correction) segs acc =
  try ps <- map_result (piece_of spell_correction) (flat_map findall segs) in
  ret (acc ++ ps).
Proof.
  revert acc. induction segs as [|seg segs IH]; intros acc; simpl.
  - now rewrite app_nil_r.
  - unfold correct_segment at 1. rewrite for_each_correct_match.
    rewrite map_result_app.
    destruct (map_result (piece_of spell_correction) (findall seg)) as [e|x];
      simpl; [done|].
    rewrite IH.
    destruct (map_result (piece_of spell_correction) (flat_map findall segs));
      simpl; [done|].
    now rewrite app_assoc.
Qed.

Lemma corrected_pieces_map text :
  corrected_pieces spell_correction text =
  map_result (piece_of spell_correction) (tokens text).
Proof.
  unfold corrected_pieces. rewrite for_each_correct_segment. unfold tokens.
  now destruct (map_result _ _).
Qed.

Lemma tokens_well_formed text : Forall well_formed (tokens text).
Proof.
  unfold tokens. induction (split text) as [|seg segs IH]; simpl; [constructor|].
  apply Forall_app. split; [apply findall_well_formed|exact IH].
Qed.

End SpellerLoops.

(** ** Spelling correction *)

Lemma tokens_of_token pre word post :
  well_formed (pre, word, post) ->
  tokens (pre ++ word ++ post) = [(pre, word, post)].
Proof.
  intros Hwf. unfold tokens. rewrite split_token by done. simpl.
  rewrite findall_token by done. reflexivity.
Qed.

Lemma correct_spelling_token engine pre word post :
  well_formed (pre, word, post) ->
  correct_spelling engine (pre ++ word ++ post) =
  piece_of engine (pre, word, post).
Proof.
  intros Hwf. unfold correct_spelling.
  rewrite corrected_pieces_map, tokens_of_token by done. simpl.
  now destruct (corrected_word_of engine word).
Qed.

(** C1, as the code has it: [correct_spelling] has no fallback of its own
    and uses the answer of the engine.  For a punctuated word whose answer
    is the word itself, the output is the input unchanged and nothing is
    raised, provided the word does not start with an uppercase letter or is
    left alone by [capitalize].  For a word the engine has no answer for,
    the word is lost: the output has the text None in its place, and an
    [AttributeError] is raised when the word starts with an uppercase
    letter. *)
Theorem unanswered_word_not_restored engine pre word post :
  well_formed (pre, word, post) ->
  (engine word = Some word ->
   (starts_upper word = true -> capitalize word = word) ->
   correct_spelling engine (pre ++ word ++ post) = inr (pre ++ word ++ post))
  /\
  (engine word = None ->
   correct_spelling engine (pre ++ word ++ post) =
   if starts_upper word then inl AttributeError
   else inr (pre ++ str_of "None" ++ post)).
Proof.
  intros Hwf. rewrite correct_spelling_token by done.
  destruct Hwf as (_ & Hne & _).
  destruct word as [|c rest]; [done|].
  unfold piece_of, corrected_word_of. simpl.
  split.
  - intros -> Hcap. destruct (isupper c); simpl; [|done].
    injection (Hcap eq_refl) as -> ->. reflexivity.
  - intros ->. now destruct (isupper c).
Qed.

Lemma unanswered_word_not_restored_witness :
  correct_spelling echo (str_of "?hello!") = inr (str_of "?hello!")
  /\ correct_spelling silent (str_of "?Hello!") = inl AttributeError
  /\ correct_spelling silent (str_of "?hello!") = inr (str_of "?None!").
Proof.
  assert (Hlow : well_formed (str_of "?", str_of "hello", str_of "!")).
  { repeat split; try done; repeat constructor. }
  assert (Hup : well_formed (str_of "?", str_of "Hello", str_of "!")).
  { repeat split; try done; repeat constructor. }
  split; [|split].
  - apply (proj1 (unanswered_word_not_restored echo _ _ _ Hlow));
      [reflexivity|discriminate].
  - apply (proj2 (unanswered_word_not_restored silent _ _ _ Hup)). reflexivity.
  - apply (proj2 (unanswered_word_not_restored silent _ _ _ Hlow)). reflexivity.
Defined.

(** C1 fails as stated: with no answer from the engine the word xqz comes
    out as None and the word Xqz raises, in [correct_spelling] and in the
    callback of the Correct Text button; and the word NASA, answered with
    NASA itself, comes out as Nasa. *)
Lemma unanswered_word_lost :
  correct_spelling silent (str_of "xqz") = inr (str_of "None")
  /\ correct_spelling silent (str_of "Xqz") = inl AttributeError
  /\ (update_output silent (toy_app (str_of "Xqz") (str_of "") None)).2
     = Some AttributeError
  /\ correct_spelling echo (str_of "NASA") = inr (str_of "Nasa").
Proof. vm_compute. repeat split. Qed.

(** C2, as the code has it: for a word that starts with an uppercase letter
    and has an answer from the engine, the corrected word is the answer
    with its first character in upper case and every other character in
    lower case.  So its first character is an uppercase letter when the
    answer starts with a letter, a character after the first is kept when
    it is not an uppercase letter, and an uppercase letter after the first
    is changed. *)
Theorem corrected_word_capitalized engine word d tl :
  starts_upper word = true ->
  engine word = Some (d :: tl) ->
  corrected_word_of engine word = inr (Some (upper d :: map lower tl))
  /\ (is_upper_letter d || is_lower_letter d = true ->
      isupper (upper d) = true)
  /\ (forall i x, tl !! i = Some x ->
        (is_upper_letter x = false -> map lower tl !! i = Some x)
        /\ (is_upper_letter x = true -> map lower tl !! i <> Some x)).
Proof.
  intros Hup Hans. destruct word as [|c rest]; [discriminate|].
  simpl in Hup. unfold corrected_word_of. rewrite Hans. simpl. rewrite Hup.
  repeat split.
  - apply upper_of_letter.
  - intros Hx. rewrite list_lookup_fmap, H. simpl. now rewrite lower_fixes.
  - intros Hx. rewrite list_lookup_fmap, H. simpl. intros [= Heq].
    now apply (lower_changes x).
Qed.

Lemma corrected_word_capitalized_witness :
  corrected_word_of echo (str_of "NASA") = inr (Some (str_of "Nasa")).
Proof.
  apply (corrected_word_capitalized echo (str_of "NASA") "N"%char (str_of "ASA"));
    reflexivity.
Defined.

(** C2 fails as stated: the engine answers NASA with NASA, and the corrected
    word is Nasa: three characters behind the first changed their case.
    With no answer there is no corrected word at all. *)
Lemma capitalize_lowers_the_rest :
  correct_spelling echo (str_of "NASA") = inr (str_of "Nasa")
  /\ str_of "Nasa" <> str_of "NASA"
  /\ corrected_word_of silent (str_of "Xqz") = inl AttributeError.
Proof. repeat split; try reflexivity. discriminate. Qed.

(** C4: in the output of [correct_spelling] every token of the text stands
    as one piece, and the piece is the leading punctuation run the pattern
    captured, then the corrected word, then the trailing punctuation run the
    pattern captured, and nothing else: the corrected word is the value
    the code computes from the answer of the engine for the word of the
    token.  When that corrected word is a word, the pattern captures the
    same two runs from the piece. *)
Theorem punctuation_preserved engine text out :
  correct_spelling engine text = inr out ->
  exists pieces,
    out = join (str_of " ") pieces /\
    Forall2
      (fun m piece =>
         all is_punct m.1.1 /\ all is_punct m.2 /\
         m.1.2 <> [] /\ all is_word m.1.2 /\
         exists v,
           corrected_word_of engine m.1.2 = inr v /\
           piece = m.1.1 ++ format_value v ++ m.2 /\
           (format_value v <> [] -> all is_word (format_value v) ->
            findall piece = [(m.1.1, format_value v, m.2)]))
      (flat_map findall (split text)) pieces.
Proof.
  unfold correct_spelling. rewrite corrected_pieces_map.
  destruct (map_result _ _) as [e|pieces] eqn:Hp; simpl; [done|].
  intros [= <-]. exists pieces. split; [done|].
  apply map_result_inr in Hp. fold (tokens text).
  pose proof (tokens_well_formed text) as Hwf.
  induction Hp as [|[[pre word] post] piece ms ps Hpiece _ IH];
    [constructor|].
  apply Forall_cons in Hwf as [(Hpre & Hne & Hword & Hpost) Hwf].
  constructor; [|now apply IH]. cbn [fst snd].
  unfold piece_of in Hpiece.
  destruct (corrected_word_of engine word) as [e|v]; simpl in Hpiece; [done|].
  injection Hpiece as <-.
  split; [done|]. split; [done|]. split; [done|]. split; [done|].
  exists v. split; [done|]. split; [done|].
  intros Hv Hvw. now apply findall_token.
Qed.

Lemma punctuation_preserved_witness :
  exists pieces,
    str_of "?Hi, ..wrld!?" = join (str_of " ") pieces /\
    Forall2
      (fun m piece =>
         all is_punct m.1.1 /\ all is_punct m.2 /\
         m.1.2 <> [] /\ all is_word m.1.2 /\
         exists v,
           corrected_word_of echo m.1.2 = inr v /\
           piece = m.1.1 ++ format_value v ++ m.2 /\
           (format_value v <> [] -> all is_word (format_value v) ->
            findall piece = [(m.1.1, format_value v, m.2)]))
      (flat_map findall (split (str_of " ?Hi,  ..wrld!?"))) pieces.
Proof.
  apply (punctuation_preserved echo (str_of " ?Hi,  ..wrld!?")). reflexivity.
Defined.

(** *** What reaches the output *)

Lemma span_nothing p s :
  Forall (fun c => p c = false) s -> span p s = ([], s).
Proof. intros [|c s' Hc _]; simpl; [done|]. now rewrite Hc. Qed.

Lemma match_here_wordless s : has_word_char s = false -> match_here s = None.
Proof.
  intros Hs. unfold match_here.
  destruct (span is_punct s) as [pre s1] eqn:H1.
  apply span_spec in H1 as (-> & _ & _).
  unfold has_word_char in Hs. rewrite existsb_app in Hs.
  apply orb_false_iff in Hs as [_ Hs].
  rewrite span_nothing; [done|].
  induction s1 as [|c s1 IH]; [constructor|]. simpl in Hs.
  apply orb_false_iff in Hs as [Hc Hs]. constructor; auto.
Qed.

Lemma findall_wordless s : has_word_char s = false -> findall s = [].
Proof.
  unfold findall. generalize (length s) as n. intros n. revert s.
  induction n as [|n IH]; intros s Hs; simpl; [done|].
  destruct s as [|c s]; [done|].
  rewrite match_here_wordless by done. apply IH.
  simpl in Hs. now apply orb_false_iff in Hs as [_ Hs].
Qed.

Lemma tokens_skip_wordless segs :
  flat_map findall (List.filter has_word_char segs) = flat_map findall segs.
Proof.
  induction segs as [|seg segs IH]; simpl; [done|].
  destruct (has_word_char seg) eqn:Hseg; simpl; rewrite IH; [done|].
  now rewrite findall_wordless.
Qed.

Lemma capitalize_word c : all is_word c -> all is_word (capitalize c).
Proof.
  intros [|x rest Hx Hrest]; simpl; constructor.
  - now rewrite is_word_upper.
  - apply Forall_fmap. eapply Forall_impl; [exact Hrest|].
    simpl. intros y Hy. now rewrite is_word_lower.
Qed.

Lemma all_clean p s :
  (forall c, p c = true -> clean_char c) -> all p s -> Forall clean_char s.
Proof. intros Hp Hs. eapply Forall_impl; [exact Hs|exact Hp]. Qed.

Lemma piece_clean engine m piece :
  answered_by_a_word engine m -> well_formed m ->
  piece_of engine m = inr piece -> clean_piece piece.
Proof.
  destruct m as [[pre word] post]. unfold answered_by_a_word. cbn [fst snd].
  intros Hanswer (Hpre & Hne & Hword & Hpost).
  assert (Hclean : forall v, v <> [] -> all is_word v ->
            clean_piece (pre ++ v ++ post)).
  { intros v Hv Hvw. split.
    - destruct pre; [|done]. now destruct v.
    - rewrite !Forall_app. repeat split.
      + apply (all_clean is_punct); [now right|done].
      + apply (all_clean is_word); [now left|done].
      + apply (all_clean is_punct); [now right|done]. }
  destruct word as [|w0 word]; [done|].
  unfold piece_of, corrected_word_of. simpl.
  destruct (engine (w0 :: word)) as [c|] eqn:Hc.
  - destruct (Hanswer c eq_refl) as [Hcne Hcw].
    destruct (isupper w0); simpl; intros [= <-]; apply Hclean; try done.
    + now destruct c.
    + now apply capitalize_word.
  - destruct (isupper w0); simpl; intros [= <-].
    apply (Hclean (str_of "None")); [done|repeat constructor].
Qed.

Lemma join_chars (P : ascii -> Prop) sep pieces :
  Forall P sep -> Forall (Forall P) pieces -> Forall P (join sep pieces).
Proof.
  intros Hsep. induction 1 as [|x rest Hx Hrest IH]; simpl; [constructor|].
  destruct rest as [|y rest]; [done|].
  rewrite !Forall_app. auto.
Qed.

(** C9: for a text such that the engine answers the words of its tokens,
    when it answers them, with words, the output of [correct_spelling] is
    a list of pieces joined by single spaces, each piece not empty and made
    of word characters and the punctuation marks only; so no other
    character of the input is in the output.  The segments without a word
    character add nothing: the pieces are those of the other segments.
    Nothing is asked of the answers to other words. *)
Theorem output_alphabet engine text out :
  Forall (answered_by_a_word engine) (flat_map findall (split text)) ->
  correct_spelling engine text = inr out ->
  exists pieces,
    out = join (str_of " ") pieces
    /\ Forall clean_piece pieces
    /\ Forall (fun c => clean_char c \/ c = " "%char) out
    /\ for_each (correct_segment engine)
                (List.filter has_word_char (split text)) []
       = inr pieces.
Proof.
  intros Hanswers. fold (tokens text) in Hanswers.
  unfold correct_spelling. rewrite corrected_pieces_map.
  destruct (map_result _ _) as [e|pieces] eqn:Hp; simpl; [done|].
  intros [= <-].
  assert (Hclean : Forall clean_piece pieces).
  { apply map_result_inr in Hp. pose proof (tokens_well_formed text) as Hwf.
    induction Hp as [|m piece ms ps Hpiece _ IH]; [constructor|].
    apply Forall_cons in Hwf as [Hm Hwf].
    apply Forall_cons in Hanswers as [Ha Hanswers].
    constructor; [|now apply IH].
    now apply (piece_clean engine m). }
  exists pieces. repeat split.
  - exact Hclean.
  - apply join_chars; [repeat constructor; now right|].
    eapply Forall_impl; [exact Hclean|]. simpl. intros piece [_ Hpiece].
    eapply Forall_impl; [exact Hpiece|]. simpl. now left.
  - rewrite for_each_correct_segment, tokens_skip_wordless.
    fold (tokens text). now rewrite Hp.
Qed.

(** The engine that answers dont with a contraction is covered on a text
    without that word. *)
Lemma output_alphabet_witness :
  exists pieces,
    str_of "It s a b x" = join (str_of " ") pieces
    /\ Forall clean_piece pieces
    /\ Forall (fun c => clean_char c \/ c = " "%char) (str_of "It s a b x")
    /\ for_each (correct_segment contraction)
                (List.filter has_word_char
                   (split (str_of "(It's) a-b ... 'x'"))) []
       = inr pieces.
Proof.
  apply (output_alphabet contraction (str_of "(It's) a-b ... 'x'")).
  - set (toks := flat_map findall (split (str_of "(It's) a-b ... 'x'"))).
    vm_compute in toks. subst toks.
    repeat (apply Forall_cons_2;
              [intros c Hc; vm_compute in Hc; injection Hc as <-;
               (split; [done|repeat constructor])|]).
    apply Forall_nil_2.
  - reflexivity.
Defined.

(** C9 fails as stated: the code passes on what the engine answers; an
    engine that answers dont with a contraction puts an apostrophe, which
    is no word character, no punctuation mark of the pattern and no space,
    into the output. *)
Lemma engine_answer_reaches_output :
  correct_spelling contraction (str_of "dont") = inr (str_of "don't")
  /\ ~ Forall (fun c => clean_char c \/ c = " "%char) (str_of "don't").
Proof.
  split; [reflexivity|]. intros H.
  do 3 apply Forall_cons in H as [_ H]. apply Forall_cons in H as [H _].
  destruct H as [[H|H]|H]; discriminate H.
Qed.

(** ** Paraphrasing *)

Lemma choice_nonempty {A} (g : rng) (seq : list A) :
  seq <> [] ->
  exists x, seq !! (g 0 mod length seq) = Some x
            /\ choice g seq = inr (x, fun k => g (S k)).
Proof.
  intros Hne. destruct seq as [|a seq]; [done|].
  assert (Hlt : g 0 mod length (a :: seq) < length (a :: seq)).
  { apply Nat.mod_upper_bound. simpl. lia. }
  apply lookup_lt_is_Some_2 in Hlt as [x Hx]. exists x. split; [done|].
  unfold choice, randbelow. now rewrite Hx.
Qed.

Lemma others_nonempty (synonyms : gset str) (word : str) :
  1 < size synonyms -> elements (synonyms ∖ {[ word ]}) <> [].
Proof.
  intros Hsize Hnil.
  assert (Hlen : size (synonyms ∖ {[ word ]}) = 0).
  { unfold size, set_size. simpl. now rewrite Hnil. }
  rewrite size_difference_alt in Hlen.
  assert (Hle : size (synonyms ∩ {[ word ]}) <= 1).
  { rewrite <- (size_singleton (C := gset str) word).
    apply subseteq_size, intersection_subseteq_r. }
  lia.
Qed.

Section ParaphraserLoop.

Variable wordnet_synsets_a : str -> list synset.

Lemma paraphrase_token_spec pw g tagged :
  exists out g',
    paraphrase_token wordnet_synsets_a (pw, g) tagged = inr (pw ++ [out], g')
    /\ appended wordnet_synsets_a tagged out.
Proof.
  destruct tagged as [word pos]. unfold paraphrase_token, appended.
  cbn [fst snd].
  destruct (decide (pos = str_of "JJ")) as [->|Hpos].
  - destruct (decide (1 < size (adjective_synonyms wordnet_synsets_a word)))
      as [Hsize|Hsize].
    + destruct (choice_nonempty g _ (others_nonempty _ word Hsize))
        as (x & Hx & ->).
      simpl. exists x. eexists. split; [done|]. split; [done|].
      intros _. split; [done|].
      apply elem_of_elements. eapply list_elem_of_lookup_2. exact Hx.
    + exists word, g. repeat split; done.
  - exists word, g. repeat split; done.
Qed.

Lemma paraphrase_loop tags pw g :
  exists outs g',
    for_each (paraphrase_token wordnet_synsets_a) tags (pw, g)
      = inr (pw ++ outs, g')
    /\ Forall2 (appended wordnet_synsets_a) tags outs.
Proof.
  revert pw g. induction tags as [|tagged tags IH]; intros pw g;
    cbn [for_each].
  - exists [], g. rewrite app_nil_r. split; [done|constructor].
  - destruct (paraphrase_token_spec pw g tagged) as (out & g1 & -> & Hout).
    cbn [bind]. destruct (IH (pw ++ [out]) g1) as (outs & g' & -> & Houts).
    exists (out :: outs), g'. rewrite <- app_assoc. split; [done|].
    now constructor.
Qed.

End ParaphraserLoop.

(** C3, as the code has it: for a token tagged as an adjective the
    substitution is made exactly when the set of synonyms, with the
    original word in it when the database lists it, has more than one
    member.  The replacement is then the member of the set without the
    original word that [random.choice] draws: the list it draws from has
    every such member once, and the index is the draw reduced modulo its
    length.  Otherwise the original token is kept and nothing is drawn. *)
Theorem adjective_substitution synsets pw g word :
  let synonyms := adjective_synonyms synsets word in
  let others := elements (synonyms ∖ {[ word ]}) in
  exists out g',
    paraphrase_token synsets (pw, g) (word, str_of "JJ")
      = inr (pw ++ [out], g')
    /\ (out <> word <-> 1 < size synonyms)
    /\ (1 < size synonyms ->
        others !! (g 0 mod length others) = Some out
        /\ NoDup others
        /\ (forall x, x ∈ others <-> x ∈ synonyms /\ x <> word))
    /\ (~ 1 < size synonyms -> out = word /\ g' = g).
Proof.
  intros synonyms others. unfold paraphrase_token.
  rewrite decide_True by done. fold synonyms.
  destruct (decide (1 < size synonyms)) as [Hsize|Hsize].
  - destruct (choice_nonempty g others (others_nonempty _ word Hsize))
      as (x & Hx & Hchoice).
    fold others. rewrite Hchoice. simpl. exists x. eexists.
    split; [done|].
    assert (Hin : x ∈ synonyms ∖ {[ word ]}).
    { apply elem_of_elements. eapply list_elem_of_lookup_2. exact Hx. }
    apply elem_of_difference in Hin as [Hin Hne].
    rewrite elem_of_singleton in Hne.
    split; [now split|]. split; [|done].
    intros _. split; [done|]. split; [apply NoDup_elements|].
    intros y. unfold others. rewrite elem_of_elements, elem_of_difference.
    now rewrite elem_of_singleton.
  - exists word, g. split; [done|]. split; [now split|]. now split.
Qed.

Example adjective_substitution_sample :
  paraphrase_sentence toy_tokenize toy_tag toy_synsets
    (str_of "a good day . big now .") zeros
  = inr (str_of "a well day. big now.", zeros).
Proof. reflexivity. Qed.

(** C3 fails as stated: the database lists good and well for good; without
    the original word one synonym is left, not more than one, and the
    substitution is made all the same. *)
Lemma substitution_with_one_other_synonym :
  size (adjective_synonyms toy_synsets (str_of "good") ∖ {[ str_of "good" ]})
    = 1
  /\ exists g',
       paraphrase_token toy_synsets ([], zeros) (str_of "good", str_of "JJ")
         = inr ([str_of "well"], g').
Proof. split; [by vm_compute|]. eexists. by vm_compute. Qed.

Section ParaphraseSentence.

Variable word_tokenize : str -> list str.
Variable pos_tag : list str -> list (str * str).
Variable wordnet_synsets_a : str -> list synset.

Lemma paraphrased_words_spec sentence g :
  exists outs g',
    paraphrased_words_of word_tokenize pos_tag wordnet_synsets_a sentence g
      = inr (outs, g')
    /\ paraphrase_sentence word_tokenize pos_tag wordnet_synsets_a sentence g
      = inr (sub_space_before_punct (join (str_of " ") outs), g')
    /\ Forall2 (appended wordnet_synsets_a)
               (pos_tag (word_tokenize sentence)) outs.
Proof.
  unfold paraphrase_sentence, paraphrased_words_of.
  destruct (paraphrase_loop wordnet_synsets_a
              (pos_tag (word_tokenize sentence)) [] g)
    as (outs & g' & -> & Houts).
  exists outs, g'. repeat split; done.
Qed.

(** C5: [paraphrase_sentence] returns, whatever is drawn; its words are
    those of the tagged tokens, position by position, and a token whose
    tag is not JJ stands there unchanged.  The output is these words
    joined by spaces, with the spaces before closing punctuation
    removed. *)
Theorem non_adjectives_unchanged sentence g :
  exists outs g',
    paraphrased_words_of word_tokenize pos_tag wordnet_synsets_a sentence g
      = inr (outs, g')
    /\ paraphrase_sentence word_tokenize pos_tag wordnet_synsets_a sentence g
      = inr (sub_space_before_punct (join (str_of " ") outs), g')
    /\ length outs = length (pos_tag (word_tokenize sentence))
    /\ forall i word pos,
         pos_tag (word_tokenize sentence) !! i = Some (word, pos) ->
         pos <> str_of "JJ" ->
         outs !! i = Some word.
Proof.
  destruct (paraphrased_words_spec sentence g)
    as (outs & g' & Hwords & Hout & Hall).
  exists outs, g'. split; [done|]. split; [done|].
  split; [symmetry; eapply Forall2_length; exact Hall|].
  intros i word pos Hi Hpos.
  destruct (Forall2_lookup_l _ _ _ _ _ Hall Hi) as (out & Ho & [Hkeep _]).
  rewrite Ho. f_equal. now apply Hkeep.
Qed.

(** C6: whatever is drawn, [paraphrase_sentence] returns, its words stand
    for the tagged tokens one for one, position by position, and a word
    that differs from the token at its position stands for a token tagged
    JJ and is a member of the set of adjective synonyms of that token
    without the token itself.  The output is these words joined by spaces,
    with the spaces before closing punctuation removed. *)
Theorem altered_adjective_is_synonym sentence g :
  exists outs g',
    paraphrased_words_of word_tokenize pos_tag wordnet_synsets_a sentence g
      = inr (outs, g')
    /\ paraphrase_sentence word_tokenize pos_tag wordnet_synsets_a sentence g
      = inr (sub_space_before_punct (join (str_of " ") outs), g')
    /\ length outs = length (pos_tag (word_tokenize sentence))
    /\ forall i word pos,
         pos_tag (word_tokenize sentence) !! i = Some (word, pos) ->
         exists out,
           outs !! i = Some out
           /\ (out <> word ->
               pos = str_of "JJ"
               /\ out ∈ adjective_synonyms wordnet_synsets_a word ∖ {[ word ]}).
Proof.
  destruct (paraphrased_words_spec sentence g)
    as (outs & g' & Hwords & Hout & Hall).
  exists outs, g'. split; [done|]. split; [done|].
  split; [symmetry; eapply Forall2_length; exact Hall|].
  intros i word pos Hi.
  destruct (Forall2_lookup_l _ _ _ _ _ Hall Hi) as (out & Ho & [_ Halt]).
  exists out. split; [done|]. exact Halt.
Qed.

End ParaphraseSentence.

(** ** The paraphrase action *)




Section CallbackProperties.

Variable spell_correction : str -> option str.
Variable word_tokenize : str -> list str.
Variable pos_tag : list str -> list (str * str).
Variable wordnet_synsets_a : str -> list synset.

(** C8: without a selection in the corrected display the paraphrase
    action returns without raising and leaves the whole state, the
    paraphrased display included, as it was. *)
Theorem paraphrase_without_selection st :
  selection (corrected_text_widget st) = None ->
  update_paraphrase spell_correction word_tokenize pos_tag
    wordnet_synsets_a st = (st, None).
Proof.
  intros Hsel. unfold update_paraphrase, tk_get_selection, tk_index_sel_first.
  now rewrite Hsel.
Qed.

(** C10: the paraphrase action, however it ends, leaves the original
    display, the corrected display and the two selection lists as they
    were. *)
Theorem paraphrase_frame st :
  let st' := (update_paraphrase spell_correction word_tokenize pos_tag
                wordnet_synsets_a st).1 in
  original_text_widget st' = original_text_widget st
  /\ corrected_text_widget st' = corrected_text_widget st
  /\ synonym_listbox st' = synonym_listbox st
  /\ spelling_listbox st' = spelling_listbox st.
Proof.
  unfold update_paraphrase.
  destruct (tk_get_selection _) as [e|selected_text]; [now destruct e|].
  destruct (bind _ _) as [e|[start_idx end_idx]]; [done|].
  destruct (paraphrase_sentence _ _ _ _ _) as [e|[paraphrased g]]; [done|].
  destruct (correct_spelling _ _) as [e|corrected]; done.
Qed.


End CallbackProperties.

Example paraphrase_frame_sample :
  let st := toy_app (str_of "a gud day") (str_of "a good day") (Some (2, 6)) in
  let st' := (update_paraphrase echo toy_tokenize toy_tag toy_synsets st).1 in
  contents (original_text_widget st') = str_of "a gud day"
  /\ contents (corrected_text_widget st') = str_of "a good day"
  /\ contents (paraphrase_text_widget st') = str_of "a well  day" ++ [newline].
Proof. by vm_compute. Qed.

Lemma paraphrase_without_selection_witness :
  update_paraphrase echo toy_tokenize toy_tag toy_synsets
    (toy_app (str_of "a gud day") (str_of "a good day") None)
  = (toy_app (str_of "a gud day") (str_of "a good day") None, None).
Proof.
  apply (paraphrase_without_selection echo toy_tokenize toy_tag toy_synsets).
  reflexivity.
Defined.


Example paraphrase_drops_trailing_word :
  contents
    (paraphrase_text_widget
       (update_paraphrase echo toy_tokenize toy_tag toy_synsets
          (toy_app (str_of "") (str_of "a good - day now") (Some (2, 12)))).1)
  = str_of "a well -  now" ++ [newline].
Proof. by vm_compute. Qed.

(** * Further properties of the code *)

(** ** Spelling correction: errors and edges *)

Lemma map_result_inl {A B} (f : A -> result B) l e :
  map_result f l = inl e -> Exists (fun a => f a = inl e) l.
Proof.
  induction l as [|a l IH]; simpl; [done|].
  destruct (f a) as [e'|b] eqn:Ha; simpl.
  - intros [= ->]. now left.
  - destruct (map_result f l) as [e'|bs]; simpl; [|done].
    intros [= ->]. right. now apply IH.
Qed.

Lemma map_result_fails {A B} (f : A -> result B) l :
  Exists (fun a => exists e, f a = inl e) l -> exists e, map_result f l = inl e.
Proof.
  induction 1 as [a l [e Ha]|a l _ [e IH]]; simpl.
  - rewrite Ha. by eexists.
  - destruct (f a) as [e'|b]; simpl; [by eexists|].
    rewrite IH. by eexists.
Qed.

Lemma piece_of_raises engine m e :
  well_formed m ->
  piece_of engine m = inl e <-> e = AttributeError /\ unanswered_upper engine m.
Proof.
  destruct m as [[pre word] post]. intros (_ & Hne & _).
  destruct word as [|c word]; [done|].
  unfold piece_of, corrected_word_of, unanswered_upper. cbn.
  destruct (engine (c :: word)) as [a|], (isupper c); cbn; split;
    try done; try (intros [_ [? ?]]; done); try (intros [-> _]; done).
  now intros [= <-].
Qed.

(** X1: [correct_spelling] raises nothing but an [AttributeError], and
    raises it exactly when some token of the text has a word that starts
    with an uppercase letter and gets no answer from the engine.  In
    particular [word[0]] never raises. *)
Theorem correct_spelling_raises engine text e :
  correct_spelling engine text = inl e
  <-> e = AttributeError
      /\ Exists (unanswered_upper engine) (flat_map findall (split text)).
Proof.
  unfold correct_spelling. rewrite corrected_pieces_map. fold (tokens text).
  pose proof (tokens_well_formed text) as Hwf. split.
  - destruct (map_result _ _) as [e'|ps] eqn:Hm; simpl; [|done].
    intros [= ->]. apply map_result_inl in Hm.
    apply Exists_exists in Hm as (m & Hin & Hm).
    rewrite Forall_forall in Hwf.
    apply piece_of_raises in Hm as [-> Hm]; [|now apply Hwf].
    split; [done|]. apply Exists_exists. eauto.
  - intros [-> Hex].
    destruct (map_result_fails (piece_of engine) (tokens text)) as [e He].
    { apply Exists_exists in Hex as (m & Hin & Hm).
      apply Exists_exists. exists m. split; [done|]. exists AttributeError.
      rewrite Forall_forall in Hwf.
      apply piece_of_raises; [now apply Hwf|done]. }
    rewrite He. simpl. f_equal.
    apply map_result_inl, Exists_exists in He as (m & Hin & Hm).
    rewrite Forall_forall in Hwf.
    now apply piece_of_raises in Hm as [-> _]; [|apply Hwf].
Qed.

Lemma split_from_chars (P : ascii -> Prop) s : forall word,
  Forall P word -> Forall P s -> Forall (Forall P) (split_from word s).
Proof.
  induction s as [|c s IH]; intros word Hw Hs; simpl.
  - destruct word; [apply Forall_nil_2|].
    apply Forall_cons_2; [done|apply Forall_nil_2].
  - apply Forall_cons in Hs as [Hc Hs].
    destruct (isspace c).
    + destruct word; [now apply IH|]. constructor; [done|now apply IH].
    + apply IH; [|done]. apply Forall_app. split; [done|]. now constructor.
Qed.

Lemma wordless_existsb s :
  has_word_char s = false <-> Forall (fun c => is_word c = false) s.
Proof.
  unfold has_word_char. induction s as [|c s IH]; simpl.
  - split; [constructor|done].
  - rewrite orb_false_iff, IH, Forall_cons. done.
Qed.

(** X2: a text without a word character (empty, blank, or punctuation and
    other signs only) has the empty string as its correction, whatever the
    engine. *)
Theorem wordless_text_corrected_to_nothing engine text :
  has_word_char text = false ->
  correct_spelling engine text = inr [].
Proof.
  intros Htext. unfold correct_spelling. rewrite corrected_pieces_map.
  assert (Htok : tokens text = []).
  { unfold tokens, split.
    pose proof (split_from_chars (fun c => is_word c = false) text []
                  ltac:(constructor) (proj1 (wordless_existsb text) Htext))
      as Hsegs.
    induction Hsegs as [|seg segs Hseg _ IH]; simpl; [done|].
    rewrite IH, findall_wordless; [done|]. now apply wordless_existsb. }
  now rewrite Htok.
Qed.

Lemma wordless_text_corrected_to_nothing_witness :
  correct_spelling silent (str_of " ... (?) -- ") = inr [].
Proof.
  apply (wordless_text_corrected_to_nothing silent). reflexivity.
Defined.

(** X3: a text in which every segment is one punctuated word that the
    engine answers with the word itself, words with an uppercase initial
    being in capitalized form, comes back with its segments joined by
    single spaces: only the whitespace is normalized. *)
Theorem settled_text_round_trip engine text :
  Forall (settled engine) (split text) ->
  correct_spelling engine text = inr (join (str_of " ") (split text)).
Proof.
  intros Hsegs. unfold correct_spelling. rewrite corrected_pieces_map.
  unfold tokens.
  assert (Hmap : map_result (piece_of engine) (flat_map findall (split text))
                 = inr (split text)).
  { induction Hsegs as [|seg segs Hseg _ IH]; simpl; [done|].
    destruct Hseg as (pre & word & post & -> & Hwf & Hans & Hcap).
    rewrite findall_token by done. simpl. rewrite IH.
    destruct Hwf as (_ & Hne & _). destruct word as [|c word]; [done|].
    unfold corrected_word_of. rewrite Hans. simpl in *.
    destruct (isupper c); simpl; [|done].
    injection (Hcap eq_refl) as -> ->. reflexivity. }
  now rewrite Hmap.
Qed.

Lemma settled_text_round_trip_witness :
  correct_spelling echo (str_of "  Hello,   world!  ")
  = inr (join (str_of " ") (split (str_of "  Hello,   world!  "))).
Proof.
  apply (settled_text_round_trip echo).
  repeat constructor.
  - exists [], (str_of "Hello"), (str_of ",").
    repeat split; try done; repeat constructor.
  - exists [], (str_of "world"), (str_of "!").
    repeat split; try done; repeat constructor.
Defined.

(** ** Spelling correction: segments and words *)

Lemma split_from_space word a c b :
  isspace c = true ->
  split_from word (a ++ c :: b) = split_from word a ++ split b.
Proof.
  intros Hc. revert word. induction a as [|x a IH]; intros word; simpl.
  - rewrite Hc. now destruct word.
  - destruct (isspace x).
    + destruct word; rewrite IH; reflexivity.
    + apply IH.
Qed.

Lemma join_app sep (x y : list str) :
  x <> [] -> y <> [] -> join sep (x ++ y) = join sep x ++ sep ++ join sep y.
Proof.
  intros Hx Hy. induction x as [|a x IH]; [done|].
  destruct x as [|a' x].
  - simpl. now destruct y.
  - change (join sep ((a :: a' :: x) ++ y))
      with (a ++ sep ++ join sep ((a' :: x) ++ y)).
    rewrite IH by done. simpl. now rewrite <- !app_assoc.
Qed.

(** X4: correction works segment by segment.  The correction of two texts
    put together with a whitespace character between them is the two
    corrections joined by one space, when neither correction is empty; and
    it raises as soon as one of them raises. *)
Theorem correction_of_joined_texts engine a c b :
  isspace c = true ->
  match correct_spelling engine a, correct_spelling engine b with
  | inr x, inr y =>
      x <> [] -> y <> [] ->
      correct_spelling engine (a ++ c :: b) = inr (x ++ str_of " " ++ y)
  | inl e, _ => correct_spelling engine (a ++ c :: b) = inl e
  | inr _, inl e => correct_spelling engine (a ++ c :: b) = inl e
  end.
Proof.
  intros Hc. unfold correct_spelling. rewrite !corrected_pieces_map.
  unfold tokens, split. rewrite split_from_space by done. fold (split b).
  rewrite flat_map_app, map_result_app.
  destruct (map_result _ (flat_map findall (split_from [] a))) as [e|xs];
    simpl; [done|].
  destruct (map_result _ (flat_map findall (split b))) as [e|ys];
    simpl; [done|].
  intros Hx Hy. rewrite join_app; [done| |]; intros ->; done.
Qed.

Lemma correction_of_joined_texts_witness :
  correct_spelling echo (str_of "Hi, all" ++ newline :: str_of "bye!")
  = inr (str_of "Hi, all" ++ str_of " " ++ str_of "bye!").
Proof.
  apply (correction_of_joined_texts echo (str_of "Hi, all") newline
           (str_of "bye!")); [reflexivity|discriminate|discriminate].
Defined.

Lemma match_here_none c s : match_here (c :: s) = None -> is_word c = false.
Proof.
  destruct (is_word c) eqn:Hc; [|done].
  unfold match_here. cbn [span]. rewrite (word_not_punct c Hc).
  cbn [span]. rewrite Hc.
  destruct (span is_word s) as [w s2]. destruct (span is_punct s2). done.
Qed.

Lemma filter_all p (s : str) : all p s -> List.filter p s = s.
Proof.
  induction 1 as [|c s Hc _ IH]; simpl; [done|]. now rewrite Hc, IH.
Qed.

Lemma filter_none p q (s : str) :
  (forall c, p c = true -> q c = false) -> all p s -> List.filter q s = [].
Proof.
  intros Hpq. induction 1 as [|c s Hc _ IH]; simpl; [done|].
  now rewrite (Hpq c Hc).
Qed.

Lemma findall_from_words n : forall s,
  length s <= n ->
  concat (map (fun m => m.1.2) (findall_from n s)) = List.filter is_word s.
Proof.
  induction n as [|n IH]; intros s Hn.
  - destruct s; [done|simpl in Hn; lia].
  - destruct s as [|c s]; [done|]. cbn [findall_from].
    destruct (match_here (c :: s)) as [[m s']|] eqn:Hm.
    + apply match_here_spec in Hm as (Hwf & Hs & Hlen).
      destruct m as [[pre word] post]. destruct Hwf as (Hpre & _ & Hw & Hpost).
      cbn [fst snd] in Hs. rewrite Hs. cbn [map concat fst snd].
      rewrite IH by (simpl in *; lia).
      rewrite !List.filter_app, (filter_all _ _ Hw).
      rewrite (filter_none is_punct is_word pre punct_not_word Hpre).
      now rewrite (filter_none is_punct is_word post punct_not_word Hpost).
    + apply match_here_none in Hm. simpl List.filter. rewrite Hm.
      apply IH. simpl in Hn. lia.
Qed.

Lemma split_from_concat s : forall word,
  concat (split_from word s) = word ++ List.filter not_space s.
Proof.
  induction s as [|c s IH]; intros word; simpl.
  - destruct word; simpl; now rewrite ?app_nil_r.
  - unfold not_space at 1. destruct (isspace c); simpl.
    + destruct word; simpl; now rewrite IH.
    + rewrite IH. now rewrite <- app_assoc.
Qed.

Lemma filter_word_not_space s :
  List.filter is_word (List.filter not_space s) = List.filter is_word s.
Proof.
  induction s as [|c s IH]; simpl; [done|].
  unfold not_space at 1. destruct (isspace c) eqn:Hs; simpl.
  - destruct (is_word c) eqn:Hw; [|done].
    rewrite (word_not_space c Hw) in Hs. done.
  - now rewrite IH.
Qed.

(** X5: the words of the tokens of a text, as the split at whitespace and
    the pattern give them, put one after the other, are the word
    characters of the text, all of them and in their order: no word
    character is lost or added by the splitting into segments and tokens. *)
Theorem words_are_the_word_characters text :
  concat (map (fun m => m.1.2) (flat_map findall (split text)))
  = List.filter is_word text.
Proof.
  rewrite <- filter_word_not_space.
  pose proof (split_from_concat text []) as Hsplit. simpl in Hsplit.
  fold (split text) in Hsplit. rewrite <- Hsplit. clear Hsplit.
  induction (split text) as [|seg segs IH]; simpl; [done|].
  rewrite map_app, concat_app, List.filter_app, IH. f_equal.
  now apply findall_from_words.
Qed.

(** ** Paraphrasing: the formatting pass, the draws, the synonyms *)

Lemma sub_space_before_punct_bounded n : forall s,
  length s <= n ->
  List.filter not_space (sub_space_before_punct s) = List.filter not_space s
  /\ length (sub_space_before_punct s) <= length s.
Proof.
  induction n as [|n IH]; intros s Hn.
  - destruct s; [done|simpl in Hn; lia].
  - destruct s as [|c [|p rest]]; [done|done|].
    assert (Hkeep :
      List.filter not_space (c :: sub_space_before_punct (p :: rest))
        = List.filter not_space (c :: p :: rest)
      /\ length (c :: sub_space_before_punct (p :: rest))
         <= length (c :: p :: rest)).
    { destruct (IH (p :: rest) ltac:(simpl in *; lia)) as [Hf Hl].
      split; [|simpl in *; lia].
      change (List.filter not_space (c :: ?l))
        with (if not_space c then c :: List.filter not_space l
              else List.filter not_space l).
      now rewrite Hf. }
    cbn [sub_space_before_punct].
    destruct (isspace c && is_close_punct p) eqn:Hcp; [|exact Hkeep].
    apply andb_true_iff in Hcp as [Hc _].
    assert (Hnc : not_space c = false) by (unfold not_space; now rewrite Hc).
    destruct rest as [|d rest].
    + split; [|simpl; lia]. cbn [List.filter]. now rewrite Hnc.
    + destruct (isspace d) eqn:Hd; [|exact Hkeep].
      destruct (IH rest ltac:(simpl in *; lia)) as [Hf Hl].
      split; [|simpl in *; lia].
      cbn [List.filter]. now rewrite Hnc, Hf.
Qed.

(** X6: the formatting pass of [paraphrase_sentence] removes whitespace
    only: the characters of the sentence that are not whitespace are all
    kept, in their order, and the sentence gets no longer. *)
Theorem formatting_removes_whitespace_only s :
  List.filter not_space (sub_space_before_punct s) = List.filter not_space s
  /\ length (sub_space_before_punct s) <= length s.
Proof. now apply (sub_space_before_punct_bounded (length s)). Qed.

Lemma paraphrase_token_draw synsets pw g tagged :
  exists out,
    paraphrase_token synsets (pw, g) tagged
    = inr (pw ++ [out],
           if substituted synsets tagged then fun k => g (S k) else g)
    /\ (substituted synsets tagged = false -> out = tagged.1).
Proof.
  destruct tagged as [word pos]. unfold paraphrase_token, substituted.
  cbn [fst snd].
  destruct (decide (pos = str_of "JJ")) as [->|Hpos].
  - destruct (decide (1 < size (adjective_synonyms synsets word)))
      as [Hsize|Hsize].
    + destruct (choice_nonempty g _ (others_nonempty _ word Hsize))
        as (x & _ & ->).
      rewrite bool_decide_eq_true_2 by done. exists x. now split.
    + rewrite bool_decide_eq_false_2 by (intros [_ ?]; done).
      exists word. now split.
  - rewrite bool_decide_eq_false_2 by (intros [? _]; done).
    exists word. now split.
Qed.

Lemma paraphrase_loop_draws synsets tags : forall pw g,
  exists outs g',
    for_each (paraphrase_token synsets) tags (pw, g) = inr (pw ++ outs, g')
    /\ (forall k,
          g' k = g (k + length (List.filter (substituted synsets) tags)))
    /\ (Forall (fun tagged => substituted synsets tagged = false) tags ->
        outs = map fst tags /\ g' = g).
Proof.
  induction tags as [|tagged tags IH]; intros pw g; cbn [for_each].
  - exists [], g. rewrite app_nil_r. repeat split; try done.
    intros k. simpl. f_equal. lia.
  - destruct (paraphrase_token_draw synsets pw g tagged) as (out & -> & Hout).
    cbn [bind].
    destruct (IH (pw ++ [out])
                (if substituted synsets tagged then fun k => g (S k) else g))
      as (outs & g' & Hrun & Hdraws & Hkeep).
    exists (out :: outs), g'. split.
    { etransitivity; [exact Hrun|]. now rewrite <- app_assoc. }
    split.
    + intros k. rewrite Hdraws. cbn [List.filter].
      destruct (substituted synsets tagged); simpl; f_equal; lia.
    + intros Hall. apply Forall_cons in Hall as [Hhd Htl].
      destruct (Hkeep Htl) as [-> ->]. rewrite Hhd, (Hout Hhd). done.
Qed.

(** X7: [paraphrase_sentence] uses one draw of the random source for every
    token it substitutes, that is for every token tagged JJ whose set of
    synonyms has more than one member, and no other draw. *)
Theorem one_draw_per_substitution tokenize tag synsets sentence g :
  exists paraphrased g',
    paraphrase_sentence tokenize tag synsets sentence g
      = inr (paraphrased, g')
    /\ forall k,
         g' k = g (k + length (List.filter (substituted synsets)
                                           (tag (tokenize sentence)))).
Proof.
  unfold paraphrase_sentence, paraphrased_words_of.
  destruct (paraphrase_loop_draws synsets (tag (tokenize sentence)) [] g)
    as (outs & g' & -> & Hdraws & _).
  simpl. by eexists _, g'.
Qed.

(** X8: when no token of the sentence is tagged JJ with more than one
    synonym, [paraphrase_sentence] returns the tokens joined by spaces and
    formatted, and leaves the random source as it was. *)
Theorem sentence_without_substitution tokenize tag synsets sentence g :
  Forall (fun tagged => substituted synsets tagged = false)
         (tag (tokenize sentence)) ->
  paraphrase_sentence tokenize tag synsets sentence g
  = inr (sub_space_before_punct
           (join (str_of " ") (map fst (tag (tokenize sentence)))), g).
Proof.
  intros Hall. unfold paraphrase_sentence, paraphrased_words_of.
  destruct (paraphrase_loop_draws synsets (tag (tokenize sentence)) [] g)
    as (outs & g' & -> & _ & Hkeep).
  now destruct (Hkeep Hall) as [-> ->].
Qed.

Lemma sentence_without_substitution_witness :
  paraphrase_sentence toy_tokenize toy_tag toy_synsets
    (str_of "a big day .") zeros
  = inr (str_of "a big day.", zeros).
Proof.
  apply (sentence_without_substitution toy_tokenize toy_tag toy_synsets
           (str_of "a big day .") zeros).
  repeat constructor.
Defined.

Lemma synonym_loops_elem (syns : list synset) x : forall acc : gset str,
  x ∈ foldl (fun synonyms syn =>
               foldl (fun synonyms lemma => synonyms ∪ {[ lemma_name lemma ]})
                     synonyms (lemmas syn))
            acc syns
  <-> x ∈ acc
      \/ exists syn lemma,
           syn ∈ syns /\ lemma ∈ lemmas syn /\ lemma_name lemma = x.
Proof.
  assert (Hinner : forall (ls : list wn_lemma) (acc : gset str),
            x ∈ foldl (fun synonyms lemma => synonyms ∪ {[ lemma_name lemma ]})
                      acc ls
            <-> x ∈ acc \/ exists lemma, lemma ∈ ls /\ lemma_name lemma = x).
  { induction ls as [|l ls IH]; intros acc; simpl.
    - split; [now left|]. intros [H|(l & Hl & _)]; [done|].
      now apply elem_of_nil in Hl.
    - rewrite IH, elem_of_union, elem_of_singleton. split.
      + intros [[H|H]|(l' & Hl' & Hn)]; [now left| |].
        * right. exists l. split; [apply list_elem_of_here|done].
        * right. exists l'. split; [now apply list_elem_of_further|done].
      + intros [H|(l' & Hl' & Hn)]; [now left; left|].
        apply elem_of_cons in Hl' as [->|Hl']; [left; now right|].
        right. by exists l'. }
  induction syns as [|syn syns IH]; intros acc; simpl.
  - split; [now left|]. intros [H|(s & l & Hs & _)]; [done|].
    now apply elem_of_nil in Hs.
  - rewrite IH, Hinner. split.
    + intros [[H|(l & Hl & Hn)]|(s & l & Hs & Hl & Hn)]; [now left| |].
      * right. exists syn, l. split; [apply list_elem_of_here|done].
      * right. exists s, l. split; [now apply list_elem_of_further|done].
    + intros [H|(s & l & Hs & Hl & Hn)]; [now left; left|].
      apply elem_of_cons in Hs as [->|Hs]; [left; right; by exists l|].
      right. by exists s, l.
Qed.

(** X9: the set of synonyms that [paraphrase_sentence] builds for a word
    holds exactly the names of the lemmas of the adjective sense entries
    of the word; a word without a sense entry has the empty set. *)
Theorem adjective_synonyms_are_lemma_names synsets word x :
  x ∈ adjective_synonyms synsets word
  <-> exists syn lemma,
        syn ∈ synsets word /\ lemma ∈ lemmas syn /\ lemma_name lemma = x.
Proof.
  unfold adjective_synonyms. rewrite synonym_loops_elem.
  split; [intros [H|H]; [|done]|now right].
  now apply not_elem_of_empty in H.
Qed.

(** ** The callbacks together *)

Section CallbackSequences.

Variable spell_correction : str -> option str.
Variable word_tokenize : str -> list str.
Variable pos_tag : list str -> list (str * str).
Variable wordnet_synsets_a : str -> list synset.


(** X11: after a Correct Text action that did not raise, nothing is
    selected in the corrected display, so the paraphrase action changes
    nothing and raises nothing. *)
Theorem paraphrase_after_correction st :
  (update_output spell_correction st).2 = None ->
  update_paraphrase spell_correction word_tokenize pos_tag wordnet_synsets_a
    (update_output spell_correction st).1
  = ((update_output spell_correction st).1, None).
Proof.
  unfold update_output.
  destruct (correct_spelling spell_correction _) as [e|corrected]; [done|].
  intros _. reflexivity.
Qed.

(** X12: the Correct Text action reads the original display only: done
    twice in a row it gives the state and the outcome it gives done
    once. *)
Theorem correction_twice st :
  update_output spell_correction (update_output spell_correction st).1
  = update_output spell_correction st.
Proof.
  unfold update_output at 2 3.
  destruct (correct_spelling spell_correction _) as [e|corrected] eqn:Hc.
  - unfold update_output. cbn [fst]. now rewrite Hc.
  - unfold update_output. cbn [fst with_corrected original_text_widget].
    now rewrite Hc.
Qed.

(** X13: after the Reset action the three displays and the two lists are
    empty and nothing is selected; the Correct Text action and the
    paraphrase action then leave the state as it is and raise nothing,
    whatever the engine answers; and a second Reset changes nothing. *)
Theorem reset_then_actions st :
  let st' := clear_all st in
  contents (original_text_widget st') = []
  /\ contents (corrected_text_widget st') = []
  /\ contents (paraphrase_text_widget st') = []
  /\ synonym_listbox st' = []
  /\ spelling_listbox st' = []
  /\ update_output spell_correction st' = (st', None)
  /\ update_paraphrase spell_correction word_tokenize pos_tag
       wordnet_synsets_a st' = (st', None)
  /\ clear_all st' = st'.
Proof. destruct st. repeat split. Qed.

End CallbackSequences.


Lemma paraphrase_after_correction_witness :
  let st := toy_app (str_of "a gud day") (str_of "old") (Some (0, 3)) in
  update_paraphrase echo toy_tokenize toy_tag toy_synsets
    (update_output echo st).1
  = ((update_output echo st).1, None).
Proof.
  intros st.
  apply (paraphrase_after_correction echo toy_tokenize toy_tag toy_synsets st).
  reflexivity.
Defined.

(** ** The lookup of synonyms and spellings *)



Section LookupProperties.

Variable wordnet_synsets : str -> list synset.
Variable spell_candidates : str -> option (gset str).
Variable tk_wordstart : text_widget -> nat -> nat.
Variable tk_wordend : text_widget -> nat -> nat.



End LookupProperties.


